(** * REINFORCE on CartPole: the training loop of
      day05/policy_gradients/policy_gradients_pytorch.ipynb

    The notebook defines [parse_args], [Policy], [select_action],
    [finish_episode] and [main].  Python and torch floating-point numbers
    are modelled by real numbers: rounding and overflow are outside the
    model.  The one exceptional value the code produces on a well-formed
    input, the NaN of the division 0/0 inside [Tensor.std], is kept as an
    explicit value of the type [scalar].

    The environment (gym), the network ([Policy.forward]), the sampler
    ([Variable.multinomial]) and the optimizer (Adam) are libraries.  They
    are the fields of the record [Library], total functions on an explicit
    state; an exception raised inside one of them aborts [main] and is
    outside the model. *)

From Stdlib Require Import List Arith Lia Reals Lra.

#[local] Set Warnings "-abstract-large-number".
Import ListNotations.

Open Scope R_scope.

(** * Part I: the program *)

(** ** Return computation: the first loop of [finish_episode] *)

(** One pass of
<<
    for r in policy.rewards[::-1]:
        R = r + gamma * R
        rewards.insert(0, R)
>>
    over the already reversed list [rs_rev]; [R0] is the accumulator [R]
    and [acc] the list [rewards] built so far. *)
Fixpoint returns_loop (gamma : R) (rs_rev : list R) (R0 : R) (acc : list R)
  : list R :=
  match rs_rev with
  | [] => acc
  | r :: rest =>
      let R1 := r + gamma * R0 in
      returns_loop gamma rest R1 (R1 :: acc)
  end.

(** [R = 0; rewards = []] followed by the loop over [policy.rewards[::-1]]. *)
Definition discounted_returns (gamma : R) (rewards : list R) : list R :=
  returns_loop gamma (rev rewards) 0 [].

(** Sum of a list of reals. *)
Definition Rsum (xs : list R) : R := fold_right Rplus 0 xs.

(** The closed form the returns are compared with:
    [sum_{k=i}^{T-1} r_k * g^(k-i)] where [T = length rs]. *)
Definition disc_sum (g : R) (rs : list R) (i : nat) : R :=
  Rsum (map (fun k => nth k rs 0 * g ^ (k - i)) (seq i (length rs - i))).

(** The same list, by recursion on the rewards in timestep order. *)
Fixpoint returns_rec (g : R) (rs : list R) : list R :=
  match rs with
  | [] => []
  | r :: rest => (r + g * hd 0 (returns_rec g rest)) :: returns_rec g rest
  end.

(** The loop body as a function on the list built so far: the
    accumulator [R] is always the head of that list (or [0] at the start). *)
Definition push_return (g : R) (acc : list R) (r : R) : list R :=
  (r + g * hd 0 acc) :: acc.

(** ** Normalization: [torch.Tensor] statistics *)

(** A tensor statistic is a number or NaN. *)
Inductive scalar : Type :=
| Num (x : R)
| NaN.

Definition sadd (a b : scalar) : scalar :=
  match a, b with
  | Num x, Num y => Num (x + y)
  | _, _ => NaN
  end.

Definition ssub (a b : scalar) : scalar :=
  match a, b with
  | Num x, Num y => Num (x - y)
  | _, _ => NaN
  end.

(** Division of numbers; a NaN operand gives NaN.  The only divisor
    [finish_episode] uses is [std + eps], which is positive whenever it is
    a number (lemma [std_plus_eps_pos] below). *)
Definition sdiv (a b : scalar) : scalar :=
  match a, b with
  | Num x, Num y => Num (x / y)
  | _, _ => NaN
  end.

(** [np.finfo(np.float32).eps]: the float32 machine epsilon, 2^-23. *)
Definition float32_eps : R := / 2 ^ 23.

(** [Tensor.mean()]: sum over the number of elements; 0/0 on no element. *)
Definition tmean (xs : list R) : scalar :=
  match xs with
  | [] => NaN
  | _ => Num (Rsum xs / INR (length xs))
  end.

(** Sum of the squared deviations from [m]. *)
Definition sumsq_dev (m : R) (xs : list R) : R :=
  Rsum (map (fun x => (x - m) * (x - m)) xs).

(** [Tensor.var()]: torch's default is the unbiased estimator (Bessel's
    correction), the squared deviations summed and divided by [n - 1].
    On one element the sum is 0 and so is [n - 1]: the quotient is NaN. *)
Definition tvar (xs : list R) : scalar :=
  match tmean xs with
  | NaN => NaN
  | Num m =>
      match (length xs - 1)%nat with
      | O => NaN
      | S _ as d => Num (sumsq_dev m xs / INR d)
      end
  end.

(** [Tensor.std()]: the square root of [Tensor.var()]. *)
Definition tstd (xs : list R) : scalar :=
  match tvar xs with
  | Num v => Num (sqrt v)
  | NaN => NaN
  end.

(** [(rewards - rewards.mean()) / (rewards.std() + np.finfo(np.float32).eps)],
    elementwise over the tensor.  The tensor is float32; over the reals
    the conversion of the returns to float32, the rounding of each
    operation (in [std + eps] the epsilon is absorbed when [std] is large)
    and overflow are absent, so what is proved of [normalize] is stated
    within a tolerance and not as an exact value of the output. *)
Definition normalize (xs : list R) : list scalar :=
  let m := tmean xs in
  let d := sadd (tstd xs) (Num float32_eps) in
  map (fun x => sdiv (ssub (Num x) m) d) xs.





(** ** The libraries *)

(** What a sampled action keeps for the backward pass: the input of the
    network, the distribution it produced and the index drawn from it. *)
Record SavedAction (Obs : Type) : Type := {
  sa_state : Obs;
  sa_probs : list R;
  sa_index : nat
}.
Arguments sa_state {Obs} _.
Arguments sa_probs {Obs} _.
Arguments sa_index {Obs} _.

Record Library : Type := {
  (** gym: the environment with its own seeded random source *)
  EnvState : Type;
  Obs : Type;
  env_make : nat -> EnvState;                 (* gym.make; env.seed(seed) *)
  env_reset : EnvState -> EnvState * Obs;     (* env.reset() *)
  env_step : EnvState -> nat -> EnvState * (Obs * R * bool);
                                              (* env.step(action) *)
  reward_threshold : R;                       (* env.spec.reward_threshold *)
  (** torch: random generator, network, sampler and optimizer *)
  Rng : Type;
  Params : Type;
  OptState : Type;
  manual_seed : nat -> Rng;                   (* torch.manual_seed(seed) *)
  policy_init : Rng -> Rng * Params;          (* Policy() *)
  adam_init : Params -> OptState;             (* optim.Adam(..., lr=1e-2) *)
  forward : Params -> Obs -> list R;          (* policy(Variable(state)) *)
  multinomial : Rng -> list R -> Rng * nat;   (* probs.multinomial() *)
  (** [action.reinforce(r)] on every pair, then [optimizer.zero_grad()],
      [autograd.backward(...)] and [optimizer.step()] *)
  optimizer_step :
    OptState -> Params -> list (SavedAction Obs * scalar) -> OptState * Params
}.

(** ** The notebook's functions *)

Record Args : Type := {
  gamma : R;
  seed : nat;
  render : bool;
  log_interval : nat
}.

(** [parse_args]: the hard-coded dictionary. *)
Definition parse_args : Args :=
  {| gamma := 99 / 100; seed := 543; render := false; log_interval := 10 |}.

(** A line of [msgs]: the initial empty string or a progress report. *)
Inductive Msg : Type :=
| Blank
| Progress (i_episode t : nat) (running_reward : R).

(** [range(10000)]: the cap on the timesteps of one episode. *)
Definition max_steps : nat := 10000.

Section Program.

Context {L : Library}.

(** The [Policy] object: the weights and its two buffers. *)
Record Policy : Type := {
  params : Params L;
  saved_actions : list (SavedAction (Obs L));
  rewards : list R
}.

(** [select_action(state, policy)]: the network gives the distribution,
    the sampler draws from it, the draw is appended to
    [policy.saved_actions] and returned. *)
Definition select_action (state : Obs L) (policy : Policy) (g : Rng L)
  : Rng L * Policy * nat :=
  let probs := forward L (params policy) state in
  let (g', action) := multinomial L g probs in
  (g',
   {| params := params policy;
      saved_actions :=
        saved_actions policy ++
        [{| sa_state := state; sa_probs := probs; sa_index := action |}];
      rewards := rewards policy |},
   action).

(** [finish_episode(policy, optimizer, gamma)]. *)
Definition finish_episode (policy : Policy) (optimizer : OptState L)
  (gamma : R) : Policy * OptState L :=
  let returns := discounted_returns gamma (rewards policy) in
  let normalized := normalize returns in
  let reinforced := combine (saved_actions policy) normalized in
  let (optimizer', params') :=
    optimizer_step L optimizer (params policy) reinforced in
  ({| params := params'; saved_actions := []; rewards := [] |}, optimizer').

(** Where [main] stands; the loop variables [t] and [state] live in the
    phase.
    - [AwaitingReset]: at the head of [for i_episode in count(1)];
    - [RunningEpisode t state]: at the head of the body of
      [for t in range(10000)];
    - [EpisodeComplete t]: after the inner loop, [t] the last index it ran;
    - [Converged]: after the [break] of the outer loop. *)
Inductive Phase : Type :=
| AwaitingReset
| RunningEpisode (t : nat) (state : Obs L)
| EpisodeComplete (t : nat)
| Converged.

Record Config : Type := {
  phase : Phase;
  env : EnvState L;
  rng : Rng L;
  policy : Policy;
  optimizer : OptState L;
  running_reward : R;
  i_episode : nat;
  msgs : list Msg
}.

(** [main] up to the outer loop. *)
Definition main_init (args : Args) : Config :=
  let env0 := env_make L (seed args) in
  let g := manual_seed L (seed args) in
  let (g', theta) := policy_init L g in
  {| phase := AwaitingReset;
     env := env0;
     rng := g';
     policy := {| params := theta; saved_actions := []; rewards := [] |};
     optimizer := adam_init L theta;
     running_reward := 10;
     i_episode := 0;
     msgs := [Blank] |}.

(** The body of the inner loop ([args.render] is [False]:
    [show_state] is not called). *)
Definition timestep (c : Config) (t : nat) (state : Obs L) : Config :=
  let '(g', policy', action) := select_action state (policy c) (rng c) in
  let '(env', (state', reward, done)) := env_step L (env c) action in
  let policy'' :=
    {| params := params policy';
       saved_actions := saved_actions policy';
       rewards := rewards policy' ++ [reward] |} in
  {| phase :=
       if done then EpisodeComplete t
       else if (S t <? max_steps)%nat then RunningEpisode (S t) state'
       else EpisodeComplete t;
     env := env';
     rng := g';
     policy := policy'';
     optimizer := optimizer c;
     running_reward := running_reward c;
     i_episode := i_episode c;
     msgs := msgs c |}.

(** The outer loop's body after the inner loop.  The two [print] calls
    write to the standard output, which the model leaves out. *)
Definition episode_end (args : Args) (c : Config) (t : nat) : Config :=
  let running_reward' := running_reward c * (99 / 100) + INR t * (1 / 100) in
  let (policy', optimizer') :=
    finish_episode (policy c) (optimizer c) (gamma args) in
  let msgs' :=
    if (i_episode c mod log_interval args =? 0)%nat
    then msgs c ++ [Progress (i_episode c) t running_reward']
    else msgs c in
  {| phase :=
       if Rgt_dec running_reward' (reward_threshold L)
       then Converged else AwaitingReset;
     env := env c;
     rng := rng c;
     policy := policy';
     optimizer := optimizer';
     running_reward := running_reward';
     i_episode := i_episode c;
     msgs := msgs' |}.

(** One move of [main]. *)
Definition step (args : Args) (c : Config) : Config :=
  match phase c with
  | AwaitingReset =>
      let (env', state) := env_reset L (env c) in
      {| phase := RunningEpisode 0 state;
         env := env';
         rng := rng c;
         policy := policy c;
         optimizer := optimizer c;
         running_reward := running_reward c;
         i_episode := S (i_episode c);
         msgs := msgs c |}
  | RunningEpisode t state => timestep c t state
  | EpisodeComplete t => episode_end args c t
  | Converged => c
  end.

(** [n] moves. *)
Definition run (args : Args) (n : nat) (c : Config) : Config :=
  Nat.iter n (step args) c.

(** What holds of the two buffers at each place of [main]. *)
Definition buffers_ok (c : Config) : Prop :=
  match phase c with
  | AwaitingReset | Converged =>
      saved_actions (policy c) = [] /\ rewards (policy c) = []
  | RunningEpisode t _ =>
      length (saved_actions (policy c)) = t /\
      length (rewards (policy c)) = t /\ (t < max_steps)%nat
  | EpisodeComplete t =>
      length (saved_actions (policy c)) = S t /\
      length (rewards (policy c)) = S t
  end.

End Program.

(** [main] after [n] moves. *)
Definition reach (L : Library) (args : Args) (n : nat) : @Config L :=
  run args n (main_init args).

Arguments Policy : clear implicits.
Arguments Phase : clear implicits.
Arguments Config : clear implicits.

(** The number of episodes [main] has finished: [i_episode] counts the
    episode in progress as well. *)
Definition episodes_done {L : Library} (c : Config L) : nat :=
  match phase c with
  | AwaitingReset | Converged => i_episode c
  | RunningEpisode _ _ | EpisodeComplete _ => (i_episode c - 1)%nat
  end.

(** The episode number a line of [msgs] reports, 0 for the initial empty
    string. *)
Definition msg_episode (m : Msg) : nat :=
  match m with
  | Blank => O
  | Progress i _ _ => i
  end.

(** The loop index stays below the cap, the running reward between 0 and
    the largest index, and [main] stops only above the threshold. *)
Definition index_ok {L : Library} (c : Config L) : Prop :=
  match phase c with
  | RunningEpisode t _ | EpisodeComplete t => (t < max_steps)%nat
  | AwaitingReset => True
  | Converged => running_reward c > reward_threshold L
  end /\
  0 <= running_reward c <= 9999.

(** Every record in the buffer holds the distribution of the current
    parameters. *)
Definition on_policy {L : Library} (c : Config L) : Prop :=
  Forall (fun a => sa_probs a = forward L (params (policy c)) (sa_state a))
         (saved_actions (policy c)).

(** The lines of [msgs] and the episode counter. *)
Definition msgs_ok {L : Library} (args : Args) (c : Config L) : Prop :=
  match phase c with
  | RunningEpisode _ _ | EpisodeComplete _ => (1 <= i_episode c)%nat
  | AwaitingReset | Converged => True
  end /\
  map msg_episode (msgs c)
  = map (fun j => (j * log_interval args)%nat)
        (seq 0 (S (episodes_done c / log_interval args))).

(** ** A small instance

    An environment whose episodes last [len] timesteps with reward 1 each,
    a network with the uniform distribution over two actions, a sampler
    that always draws action 0, and an optimizer that counts its steps. *)
Definition toy (len : nat) (thr : R) : Library :=
  {| EnvState := nat;
     Obs := unit;
     env_make := fun _ => O;
     env_reset := fun _ => (O, tt);
     env_step := fun n _ => (S n, (tt, 1, (len <=? S n)%nat));
     reward_threshold := thr;
     Rng := unit;
     Params := nat;
     OptState := unit;
     manual_seed := fun _ => tt;
     policy_init := fun g => (g, O);
     adam_init := fun _ => tt;
     forward := fun _ _ => [1 / 2; 1 / 2];
     multinomial := fun g _ => (g, O);
     optimizer_step := fun o theta _ => (o, S theta) |}.

(** The first episode of the instance with one-step episodes, stopped
    where [finish_episode] is about to be called. *)
Definition toy_first_episode : Config (toy 1 195) :=
  reach (toy 1 195) parse_args 2.

(** The same with a threshold the first episode already exceeds. *)
Definition toy_low_threshold : Config (toy 1 5) :=
  reach (toy 1 5) parse_args 2.

(** The arguments of [parse_args] with a progress report at every
    episode. *)
Definition report_every_episode : Args :=
  {| gamma := 99 / 100; seed := 543; render := false; log_interval := 1 |}.

(** * Part II: the properties *)

(** ** Discounted returns *)

Lemma returns_loop_fold g l acc :
  returns_loop g l (hd 0 acc) acc = fold_left (push_return g) l acc.
Proof.
  revert acc. induction l as [|r l IH]; intros acc; simpl.
  - reflexivity.
  - apply (IH ((r + g * hd 0 acc) :: acc)).
Qed.

Lemma fold_right_returns_rec g rs :
  fold_right (fun r acc => push_return g acc r) [] rs = returns_rec g rs.
Proof.
  induction rs as [|r rs IH]; simpl.
  - reflexivity.
  - rewrite IH. reflexivity.
Qed.

Lemma discounted_returns_rec g rs :
  discounted_returns g rs = returns_rec g rs.
Proof.
  unfold discounted_returns.
  change 0 with (hd 0 (@nil R)) at 1.
  rewrite returns_loop_fold.
  rewrite <- fold_right_returns_rec.
  rewrite <- (rev_involutive rs) at 2.
  symmetry. apply fold_left_rev_right.
Qed.

Lemma returns_rec_length g rs : length (returns_rec g rs) = length rs.
Proof. induction rs; simpl; congruence. Qed.

Lemma Rsum_map_scal (A : Type) (c : R) (f : A -> R) (l : list A) :
  Rsum (map (fun a => c * f a) l) = c * Rsum (map f l).
Proof.
  induction l as [|a l IH]; simpl.
  - ring.
  - rewrite IH. ring.
Qed.

Lemma disc_sum_nil g i : disc_sum g [] i = 0.
Proof. reflexivity. Qed.

Lemma disc_sum_cons_S g r rs i :
  disc_sum g (r :: rs) (S i) = disc_sum g rs i.
Proof.
  unfold disc_sum. simpl length. simpl Nat.sub.
  rewrite <- seq_shift, map_map.
  f_equal.
Qed.

Lemma disc_sum_cons_0 g r rs :
  disc_sum g (r :: rs) 0 = r + g * disc_sum g rs 0.
Proof.
  unfold disc_sum. simpl length. rewrite !Nat.sub_0_r.
  simpl seq. simpl map. simpl Rsum.
  rewrite <- seq_shift, map_map.
  rewrite <- Rsum_map_scal.
  f_equal; [ simpl; ring | ].
  f_equal. apply map_ext. intros k. simpl. rewrite Nat.sub_0_r. ring.
Qed.

Lemma hd_returns_rec g rs : hd 0 (returns_rec g rs) = disc_sum g rs 0.
Proof.
  induction rs as [|r rs IH].
  - reflexivity.
  - simpl hd. rewrite IH. symmetry. apply disc_sum_cons_0.
Qed.

Lemma nth_returns_rec g rs i :
  (i < length rs)%nat -> nth i (returns_rec g rs) 0 = disc_sum g rs i.
Proof.
  revert i. induction rs as [|r rs IH]; intros i Hi; simpl in Hi.
  - lia.
  - destruct i as [|i].
    + simpl nth. rewrite hd_returns_rec. symmetry. apply disc_sum_cons_0.
    + simpl nth. rewrite disc_sum_cons_S. apply IH. lia.
Qed.

(** C1: for every reward sequence of length T and discount g in [0,1] the
    reverse accumulation of [finish_episode] returns a list of length T, in
    timestep order, whose element at index i is sum_{k=i}^{T-1} r_k*g^(k-i);
    for rewards [1,1,1] and g = 0.5 it returns [1.75, 1.5, 1.0]. *)
Theorem discounted_returns_correct :
  (forall (g : R) (rs : list R), 0 <= g <= 1 ->
     length (discounted_returns g rs) = length rs /\
     forall i, (i < length rs)%nat ->
       nth i (discounted_returns g rs) 0 = disc_sum g rs i) /\
  discounted_returns (1/2) [1; 1; 1] = [7/4; 3/2; 1].
Proof.
  split.
  - intros g rs _. rewrite discounted_returns_rec. split.
    + apply returns_rec_length.
    + intros i Hi. now apply nth_returns_rec.
  - unfold discounted_returns. simpl.
    repeat (apply f_equal2; [ lra | ]). reflexivity.
Qed.

Lemma discounted_returns_correct_witness :
  0 <= 99/100 <= 1 /\ (1 < length [1; 1; 1])%nat /\
  nth 1 (discounted_returns (99/100) [1; 1; 1]) 0
  = disc_sum (99/100) [1; 1; 1] 1.
Proof.
  assert (Hg : 0 <= 99/100 <= 1) by lra.
  assert (Hi : (1 < length [1; 1; 1])%nat) by (simpl; lia).
  split; [ exact Hg | split; [ exact Hi | ] ].
  exact (proj2 (proj1 discounted_returns_correct (99/100) [1; 1; 1] Hg) 1%nat Hi).
Defined.


(** ** Normalization *)

Lemma float32_eps_pos : 0 < float32_eps.
Proof. unfold float32_eps. apply Rinv_0_lt_compat. apply pow_lt. lra. Qed.

Lemma float32_eps_value : float32_eps = 1 / 8388608.
Proof. unfold float32_eps. simpl pow. field. Qed.

Lemma float32_eps_order : 1 / 10 ^ 7 < float32_eps < 12 / 10 ^ 8.
Proof. rewrite float32_eps_value. simpl pow. lra. Qed.



Lemma INR_length_pos (A : Type) (xs : list A) :
  (1 <= length xs)%nat -> 0 < INR (length xs).
Proof. intros H. apply lt_0_INR. lia. Qed.

Lemma tmean_num xs :
  (1 <= length xs)%nat -> tmean xs = Num (Rsum xs / INR (length xs)).
Proof. destruct xs; simpl length; [ lia | reflexivity ]. Qed.

Lemma tvar_num xs :
  (2 <= length xs)%nat ->
  tvar xs =
  Num (sumsq_dev (Rsum xs / INR (length xs)) xs / INR (length xs - 1)).
Proof.
  intros H. unfold tvar. rewrite tmean_num by lia.
  destruct (length xs - 1)%nat eqn:E; [ lia | reflexivity ].
Qed.

Lemma tstd_num xs :
  (2 <= length xs)%nat ->
  tstd xs =
  Num (sqrt (sumsq_dev (Rsum xs / INR (length xs)) xs / INR (length xs - 1))).
Proof. intros H. unfold tstd. now rewrite tvar_num. Qed.

(** The standard deviation of a single element is NaN. *)
Lemma tstd_single x : tstd [x] = NaN.
Proof. reflexivity. Qed.

(** On one element the numerator of the variance is 0 as well. *)
Lemma sumsq_dev_single x : sumsq_dev (Rsum [x] / INR (length [x])) [x] = 0.
Proof. unfold sumsq_dev. simpl. field. Qed.

Lemma tstd_nonneg xs s : tstd xs = Num s -> 0 <= s.
Proof.
  unfold tstd. destruct (tvar xs) as [v|]; [ | discriminate ].
  intros [= <-]. apply sqrt_pos.
Qed.

(** The divisor of the normalization is positive when it is a number. *)
Lemma std_plus_eps_pos xs d :
  sadd (tstd xs) (Num float32_eps) = Num d -> 0 < d.
Proof.
  destruct (tstd xs) as [s|] eqn:E; simpl; [ | discriminate ].
  intros [= <-]. pose proof (tstd_nonneg _ _ E). pose proof float32_eps_pos.
  lra.
Qed.

(** A standard deviation is recognized by its square. *)
Lemma tstd_char xs s :
  (2 <= length xs)%nat -> 0 <= s ->
  sumsq_dev (Rsum xs / INR (length xs)) xs = s * s * INR (length xs - 1) ->
  tstd xs = Num s.
Proof.
  intros Hn Hs E. rewrite tstd_num by assumption. f_equal.
  rewrite E.
  assert (0 < INR (length xs - 1)) by (apply lt_0_INR; lia).
  replace (s * s * INR (length xs - 1) / INR (length xs - 1)) with (s * s)
    by (field; lra).
  now apply sqrt_square.
Qed.












(** ** The episode of one timestep *)

(** C3 (the code at the failing input): for a single reward the
    normalized return is NaN, not 0: with the configured discount and the
    reward 1 of CartPole, and for every discount and reward. *)
Theorem single_reward_normalizes_to_nan :
  normalize (discounted_returns (gamma parse_args) [1]) = [NaN] /\
  forall g r, normalize (discounted_returns g [r]) = [NaN].
Proof. split; reflexivity. Qed.

(** ** The training controller *)

Section Controller.

Context (L : Library) (args : Args).

Implicit Types c : Config L.

Lemma max_steps_pos : (0 < max_steps)%nat.
Proof. apply Nat.ltb_lt. vm_compute. reflexivity. Qed.

Lemma run_S n c : run args (S n) c = step args (run args n c).
Proof. reflexivity. Qed.

Lemma run_add p q c : run args (p + q) c = run args p (run args q c).
Proof. unfold run. apply Nat.iter_add. Qed.

(** *** What one move does, place by place *)

Lemma step_reset c :
  phase c = AwaitingReset ->
  (exists state, phase (step args c) = RunningEpisode 0 state) /\
  policy (step args c) = policy c /\
  running_reward (step args c) = running_reward c.
Proof.
  intros H. unfold step. rewrite H. destruct (env_reset L (env c)) as [e s].
  simpl. eauto.
Qed.

Lemma step_timestep c t state :
  phase c = RunningEpisode t state ->
  exists a r,
    (phase (step args c) = EpisodeComplete t \/
     exists state', phase (step args c) = RunningEpisode (S t) state' /\
                    (S t < max_steps)%nat) /\
    params (policy (step args c)) = params (policy c) /\
    saved_actions (policy (step args c)) = saved_actions (policy c) ++ [a] /\
    rewards (policy (step args c)) = rewards (policy c) ++ [r] /\
    running_reward (step args c) = running_reward c.
Proof.
  intros H. unfold step. rewrite H. unfold timestep, select_action.
  destruct (multinomial L (rng c) _) as [g' a].
  destruct (env_step L (env c) a) as [e' [[s' r] done]].
  eexists. exists r. simpl.
  repeat split; try reflexivity.
  destruct done; [ now left | ].
  destruct (S t <? max_steps)%nat eqn:E; [ right | now left ].
  exists s'. split; [ reflexivity | now apply Nat.ltb_lt ].
Qed.

Lemma step_episode_end c t :
  phase c = EpisodeComplete t ->
  let rr := running_reward c * (99 / 100) + INR t * (1 / 100) in
  running_reward (step args c) = rr /\
  (rr > reward_threshold L -> phase (step args c) = Converged) /\
  (~ rr > reward_threshold L -> phase (step args c) = AwaitingReset) /\
  policy (step args c) =
    fst (finish_episode (policy c) (optimizer c) (gamma args)).
Proof.
  intros H rr. unfold step. rewrite H. unfold episode_end. fold rr.
  destruct (finish_episode (policy c) (optimizer c) (gamma args)) as [p o].
  simpl. destruct (Rgt_dec rr (reward_threshold L)); repeat split;
    intros; try reflexivity; contradiction.
Qed.

Lemma step_converged c : phase c = Converged -> step args c = c.
Proof. intros H. unfold step. now rewrite H. Qed.

Lemma finish_episode_buffers (p : Policy L) o g :
  saved_actions (fst (finish_episode p o g)) = [] /\
  rewards (fst (finish_episode p o g)) = [].
Proof.
  unfold finish_episode. destruct (optimizer_step L o _ _). now simpl.
Qed.

Lemma finish_episode_params (p : Policy L) o g :
  params (fst (finish_episode p o g)) =
  snd (optimizer_step L o (params p)
         (combine (saved_actions p)
                  (normalize (discounted_returns g (rewards p))))).
Proof.
  unfold finish_episode. destruct (optimizer_step L o _ _). reflexivity.
Qed.

(** [select_action] appends one record: the distribution of the network
    at [state] and the index the sampler drew from it. *)
Lemma select_action_records (state : Obs L) (p : Policy L) (g : Rng L) :
  let probs := forward L (params p) state in
  let action := snd (multinomial L g probs) in
  select_action state p g =
  (fst (multinomial L g probs),
   {| params := params p;
      saved_actions :=
        saved_actions p ++
        [{| sa_state := state; sa_probs := probs; sa_index := action |}];
      rewards := rewards p |},
   action).
Proof.
  unfold select_action. destruct (multinomial L g _) as [g' a]. reflexivity.
Qed.

(** *** The invariant of the two buffers *)

Lemma main_init_buffers_ok : buffers_ok (main_init (L := L) args).
Proof.
  unfold main_init. destruct (policy_init L _) as [g theta].
  unfold buffers_ok. simpl. auto.
Qed.

Lemma step_buffers_ok c : buffers_ok c -> buffers_ok (step args c).
Proof.
  unfold buffers_ok at 1. destruct (phase c) as [|t s|t|] eqn:E; intros H.
  - destruct (step_reset c E) as ((s & Hp) & Hpol & _).
    unfold buffers_ok. rewrite Hp, Hpol. destruct H as [-> ->].
    simpl. repeat split. apply max_steps_pos.
  - destruct (step_timestep c t s E) as (a & r & Hp & _ & Hs & Hr & _).
    destruct H as (H1 & H2 & H3).
    unfold buffers_ok. rewrite Hs, Hr, !length_app, H1, H2. simpl.
    destruct Hp as [-> | (s' & -> & Hlt)]; repeat split; try lia.
  - destruct (step_episode_end c t E) as (_ & Hc & Ha & Hpol).
    destruct (finish_episode_buffers (policy c) (optimizer c) (gamma args))
      as [Hs Hr].
    unfold buffers_ok. rewrite Hpol, Hs, Hr.
    destruct (Rgt_dec (running_reward c * (99 / 100) + INR t * (1 / 100))
                      (reward_threshold L)) as [Hgt | Hle].
    + rewrite (Hc Hgt). auto.
    + rewrite (Ha Hle). auto.
  - rewrite (step_converged c E). unfold buffers_ok. now rewrite E.
Qed.

Lemma run_buffers_ok n : buffers_ok (reach L args n).
Proof.
  unfold reach. induction n as [|n IH].
  - apply main_init_buffers_ok.
  - rewrite run_S. now apply step_buffers_ok.
Qed.

(** *** Where the parameters and the phase change *)

Lemma params_change_at_episode_end c :
  params (policy (step args c)) <> params (policy c) ->
  exists t, phase c = EpisodeComplete t.
Proof.
  intros H. destruct (phase c) as [|t s|t|] eqn:E.
  - destruct (step_reset c E) as (_ & Hpol & _). now rewrite Hpol in H.
  - destruct (step_timestep c t s E) as (a & r & _ & Hpar & _).
    contradiction.
  - now exists t.
  - now rewrite (step_converged c E) in H.
Qed.

Lemma after_episode_end c t :
  phase c = EpisodeComplete t ->
  phase (step args c) = AwaitingReset \/ phase (step args c) = Converged.
Proof.
  intros E. destruct (step_episode_end c t E) as (_ & Hc & Ha & _).
  destruct (Rgt_dec (running_reward c * (99 / 100) + INR t * (1 / 100))
                    (reward_threshold L)); auto.
Qed.

Lemma converged_forever c n :
  phase c = Converged -> run args n c = c.
Proof.
  intros E. induction n as [|n IH].
  - reflexivity.
  - rewrite run_S, IH. now apply step_converged.
Qed.

(** Between two consecutive episode starts the only move that can change
    the parameters is the last one. *)
Lemma commit_is_last_move c n j :
  phase (run args n c) = AwaitingReset ->
  (forall k, (0 < k < n)%nat -> phase (run args k c) <> AwaitingReset) ->
  (j < n)%nat ->
  params (policy (run args (S j) c)) <> params (policy (run args j c)) ->
  S j = n.
Proof.
  intros Hn Hmid Hj Hch.
  rewrite run_S in Hch.
  destruct (params_change_at_episode_end _ Hch) as [t Et].
  destruct (after_episode_end _ t Et) as [Ha | Hc]; rewrite <- run_S in *.
  - destruct (Nat.eq_dec (S j) n) as [|Hne]; [ assumption | ].
    exfalso. apply (Hmid (S j)); [ lia | exact Ha ].
  - exfalso.
    replace n with ((n - S j) + S j)%nat in Hn by lia.
    rewrite run_add, (converged_forever _ _ Hc), Hc in Hn. discriminate.
Qed.

End Controller.

(** *** The instance, evaluated *)

Lemma toy_first_episode_phase : phase toy_first_episode = EpisodeComplete 0.
Proof. reflexivity. Qed.

Lemma toy_low_threshold_phase : phase toy_low_threshold = EpisodeComplete 0.
Proof. reflexivity. Qed.

Lemma toy_first_episode_buffers :
  saved_actions (policy toy_first_episode)
  = [{| sa_state := tt; sa_probs := [1 / 2; 1 / 2]; sa_index := 0 |}] /\
  rewards (policy toy_first_episode) = [1].
Proof. split; reflexivity. Qed.

Lemma toy_first_episode_running_reward :
  running_reward toy_first_episode = 10.
Proof. reflexivity. Qed.

Lemma toy_three_steps_phase :
  phase (reach (toy 3 195) parse_args 4)
  = EpisodeComplete 2.
Proof. reflexivity. Qed.

(** *** Buffer parity *)

(** C4: every timestep appends exactly one action record and exactly one
    reward, and whenever [main] is about to call [finish_episode] the two
    buffers have the same length. *)
Theorem buffer_parity_at_drain (L : Library) (args : Args) :
  (forall (c : Config L) t state,
     phase c = RunningEpisode t state ->
     length (saved_actions (policy (step args c)))
     = S (length (saved_actions (policy c))) /\
     length (rewards (policy (step args c)))
     = S (length (rewards (policy c)))) /\
  (forall n t,
     phase (reach L args n) = EpisodeComplete t ->
     length (saved_actions (policy (reach L args n)))
     = length (rewards (policy (reach L args n)))).
Proof.
  split.
  - intros c t s E.
    destruct (step_timestep L args c t s E) as (a & r & _ & _ & Hs & Hr & _).
    rewrite Hs, Hr, !length_app. simpl. lia.
  - intros n t E. pose proof (run_buffers_ok L args n) as H.
    unfold buffers_ok in H. rewrite E in H. destruct H as [-> ->].
    reflexivity.
Qed.

Lemma buffer_parity_at_drain_witness :
  phase (reach (toy 3 195) parse_args 4)
  = EpisodeComplete 2 /\
  length (saved_actions
            (policy (reach (toy 3 195) parse_args 4)))
  = length (rewards
              (policy (reach (toy 3 195) parse_args 4))).
Proof.
  split.
  - exact toy_three_steps_phase.
  - exact (proj2 (buffer_parity_at_drain (toy 3 195) parse_args) 4%nat 2%nat
             toy_three_steps_phase).
Defined.

(** *** Non-empty rewards *)

(** C10: whenever [main] is about to call [finish_episode] the reward
    buffer is non-empty, and so is the sequence of returns whose mean and
    standard deviation the normalization takes. *)
Theorem rewards_nonempty_at_finish (L : Library) (args : Args) (n t : nat) :
  phase (reach L args n) = EpisodeComplete t ->
  rewards (policy (reach L args n)) <> [] /\
  discounted_returns (gamma args)
    (rewards (policy (reach L args n))) <> [].
Proof.
  intros E. pose proof (run_buffers_ok L args n) as H.
  unfold buffers_ok in H. rewrite E in H. destruct H as [_ Hr].
  split.
  - intros H0. rewrite H0 in Hr. discriminate.
  - intros H0. apply (f_equal (@length R)) in H0.
    rewrite discounted_returns_rec, returns_rec_length, Hr in H0.
    discriminate.
Qed.

Lemma rewards_nonempty_at_finish_witness :
  phase (reach (toy 3 195) parse_args 4)
  = EpisodeComplete 2 /\
  rewards (policy (reach (toy 3 195) parse_args 4))
  <> [].
Proof.
  split.
  - exact toy_three_steps_phase.
  - exact (proj1 (rewards_nonempty_at_finish (toy 3 195) parse_args 4 2
                    toy_three_steps_phase)).
Defined.

(** *** The stopping criterion *)

(** C7: a move of [main] enters [Converged] if and only if it is the end
    of an episode and the running reward, as just updated, is strictly
    above the environment's reward threshold; no move inside an episode
    enters it. *)
Theorem converged_iff_above_threshold (L : Library) (args : Args)
  (c : Config L) :
  phase c <> Converged ->
  (phase (step args c) = Converged <->
   exists t, phase c = EpisodeComplete t /\
             running_reward (step args c) > reward_threshold L).
Proof.
  intros Hnc. destruct (phase c) as [|t s|t|] eqn:E.
  - destruct (step_reset L args c E) as ((s & Hp) & _).
    rewrite Hp. split; [ discriminate | intros (t & Ht & _); discriminate ].
  - destruct (step_timestep L args c t s E) as (a & r & Hp & _).
    split; [ | intros (t' & Ht & _); discriminate ].
    destruct Hp as [-> | (s' & -> & _)]; discriminate.
  - destruct (step_episode_end L args c t E) as (Hrr & Hc & Ha & _).
    rewrite Hrr. split.
    + intros Hp. exists t. split; [ reflexivity | ].
      destruct (Rgt_dec (running_reward c * (99 / 100) + INR t * (1 / 100))
                        (reward_threshold L)) as [Hgt | Hle];
        [ exact Hgt | ].
      rewrite (Ha Hle) in Hp. discriminate.
    + intros (t' & _ & Hgt). now apply Hc.
  - contradiction.
Qed.

Lemma converged_iff_above_threshold_witness :
  phase toy_low_threshold <> Converged /\
  (phase (step parse_args toy_low_threshold) = Converged <->
   exists t, phase toy_low_threshold = EpisodeComplete t /\
             running_reward (step parse_args toy_low_threshold) > 5).
Proof.
  assert (H : phase toy_low_threshold <> Converged)
    by (rewrite toy_low_threshold_phase; discriminate).
  split; [ exact H | ].
  exact (converged_iff_above_threshold (toy 1 5) parse_args
           toy_low_threshold H).
Defined.

(** *** The parameter update *)

Lemma toy_second_reset :
  phase (run parse_args 3 (main_init (L := toy 1 195) parse_args))
  = AwaitingReset.
Proof.
  change (phase (step parse_args toy_first_episode) = AwaitingReset).
  destruct (step_episode_end (toy 1 195) parse_args toy_first_episode 0
              toy_first_episode_phase) as (_ & _ & Ha & _).
  apply Ha. rewrite toy_first_episode_running_reward. simpl. lra.
Qed.

Lemma toy_first_commit :
  params (policy (run parse_args 3 (main_init (L := toy 1 195) parse_args)))
  <> params (policy (run parse_args 2 (main_init (L := toy 1 195) parse_args))).
Proof.
  change (1%nat <> 0%nat). discriminate.
Qed.

(** C5: a timestep of a running episode leaves the policy parameters as
    they are; the end of an episode replaces them by the result of one
    optimizer step on the whole episode's action records paired with its
    normalized returns; and between two consecutive episode starts at
    most one move changes the parameters. *)
Theorem single_commit_per_episode (L : Library) (args : Args) :
  (forall (c : Config L) t state,
     phase c = RunningEpisode t state ->
     params (policy (step args c)) = params (policy c)) /\
  (forall (c : Config L) t,
     phase c = EpisodeComplete t ->
     params (policy (step args c)) =
     snd (optimizer_step L (optimizer c) (params (policy c))
            (combine (saved_actions (policy c))
                     (normalize (discounted_returns (gamma args)
                                   (rewards (policy c))))))) /\
  (forall (c : Config L) n j k,
     phase c = AwaitingReset ->
     phase (run args n c) = AwaitingReset ->
     (forall i, (0 < i < n)%nat -> phase (run args i c) <> AwaitingReset) ->
     (j < n)%nat -> (k < n)%nat ->
     params (policy (run args (S j) c)) <> params (policy (run args j c)) ->
     params (policy (run args (S k) c)) <> params (policy (run args k c)) ->
     j = k).
Proof.
  split; [ | split ].
  - intros c t s E.
    now destruct (step_timestep L args c t s E) as (a & r & _ & Hpar & _).
  - intros c t E.
    destruct (step_episode_end L args c t E) as (_ & _ & _ & Hpol).
    rewrite Hpol. apply finish_episode_params.
  - intros c n j k _ Hn Hmid Hj Hk Hcj Hck.
    pose proof (commit_is_last_move L args c n j Hn Hmid Hj Hcj).
    pose proof (commit_is_last_move L args c n k Hn Hmid Hk Hck).
    lia.
Qed.

Lemma single_commit_per_episode_witness :
  phase (main_init (L := toy 1 195) parse_args) = AwaitingReset /\
  phase (run parse_args 3 (main_init (L := toy 1 195) parse_args))
  = AwaitingReset /\
  params (policy (run parse_args 3 (main_init (L := toy 1 195) parse_args)))
  <> params (policy (run parse_args 2 (main_init (L := toy 1 195) parse_args)))
  /\ 2%nat = 2%nat.
Proof.
  assert (H0 : phase (main_init (L := toy 1 195) parse_args) = AwaitingReset)
    by reflexivity.
  assert (Hmid : forall i, (0 < i < 3)%nat ->
            phase (run parse_args i (main_init (L := toy 1 195) parse_args))
            <> AwaitingReset).
  { intros [|[|[|i]]] Hi; try lia; discriminate. }
  assert (H2 : (2 < 3)%nat) by lia.
  split; [ exact H0 | ]. split; [ exact toy_second_reset | ].
  split; [ exact toy_first_commit | ].
  exact (proj2 (proj2 (single_commit_per_episode (toy 1 195) parse_args))
           (main_init parse_args) 3%nat 2%nat 2%nat
           H0 toy_second_reset Hmid H2 H2 toy_first_commit toy_first_commit).
Defined.

(** *** The running reward *)

(** At the end of an episode the running reward is updated with the last
    loop index [t], one less than the number of rewards in the buffer. *)
Lemma running_reward_update (L : Library) (args : Args) (n t : nat) :
  phase (reach L args n) = EpisodeComplete t ->
  running_reward (step args (reach L args n))
  = running_reward (reach L args n) * (99 / 100)
    + (INR (length (rewards (policy (reach L args n)))) - 1) * (1 / 100).
Proof.
  intros E. pose proof (run_buffers_ok L args n) as H.
  unfold buffers_ok in H. rewrite E in H. destruct H as [_ Hr].
  destruct (step_episode_end L args _ t E) as (Hrr & _).
  rewrite Hrr, Hr, S_INR. ring.
Qed.

(** C6 (the code at the failing input): after a first episode of exactly
    one timestep the running reward is 10 * 0.99 + 0 * 0.01 = 9.9, not
    10 * 0.99 + 1 * (1 - 0.99) = 9.91. *)
Theorem running_reward_counts_last_index :
  phase toy_first_episode = EpisodeComplete 0 /\
  length (rewards (policy toy_first_episode)) = 1%nat /\
  running_reward toy_first_episode = 10 /\
  running_reward (step parse_args toy_first_episode) = 99 / 10 /\
  running_reward (step parse_args toy_first_episode)
  <> running_reward toy_first_episode * (99 / 100)
     + INR (length (rewards (policy toy_first_episode))) * (1 - 99 / 100).
Proof.
  destruct (step_episode_end (toy 1 195) parse_args toy_first_episode 0
              toy_first_episode_phase) as (Hrr & _).
  rewrite toy_first_episode_running_reward in Hrr.
  assert (E : running_reward (step parse_args toy_first_episode) = 99 / 10)
    by (rewrite Hrr; simpl; lra).
  split; [ reflexivity | ]. split; [ reflexivity | ].
  split; [ reflexivity | ]. split; [ exact E | ].
  rewrite E, toy_first_episode_running_reward.
  change (length (rewards (policy toy_first_episode))) with 1%nat.
  simpl. lra.
Qed.

(** * Part III: further properties of the notebook's code *)

(** ** More on the discounted returns *)

Lemma returns_rec_skipn g rs k :
  skipn k (returns_rec g rs) = returns_rec g (skipn k rs).
Proof.
  revert rs. induction k as [|k IH]; intros [|r rs]; simpl; auto.
Qed.

(** X1: the returns from timestep [k] on are the returns of the rewards
    from timestep [k] on: a return does not depend on earlier rewards. *)
Theorem discounted_returns_suffix (g : R) (rs : list R) (k : nat) :
  skipn k (discounted_returns g rs) = discounted_returns g (skipn k rs).
Proof. rewrite !discounted_returns_rec. apply returns_rec_skipn. Qed.

Lemma hd_returns_rec_bounded g M rs :
  0 <= g < 1 -> 0 <= M ->
  (forall r, In r rs -> Rabs r <= M) ->
  Rabs (hd 0 (returns_rec g rs)) <= M / (1 - g).
Proof.
  intros Hg HM. induction rs as [|r rs IH]; intros Hrs.
  - simpl. rewrite Rabs_R0. apply Rle_mult_inv_pos; lra.
  - simpl hd.
    assert (Hr : Rabs r <= M) by (apply Hrs; now left).
    assert (Hh : Rabs (hd 0 (returns_rec g rs)) <= M / (1 - g))
      by (apply IH; intros x Hx; apply Hrs; now right).
    set (h := hd 0 (returns_rec g rs)) in *.
    set (B := M / (1 - g)) in *.
    assert (HB : B * (1 - g) = M) by (unfold B; field; lra).
    assert (Hgh : Rabs (g * h) <= g * B).
    { rewrite Rabs_mult, (Rabs_right g) by lra.
      apply Rmult_le_compat_l; lra. }
    pose proof (Rabs_triang r (g * h)). nra.
Qed.

(** X2: with a discount in [0,1) and rewards bounded by [M] in absolute
    value, every return is bounded by [M / (1 - g)]. *)
Theorem discounted_returns_bounded (g M : R) (rs : list R) :
  0 <= g < 1 ->
  (forall r, In r rs -> Rabs r <= M) ->
  forall x, In x (discounted_returns g rs) -> Rabs x <= M / (1 - g).
Proof.
  intros Hg. rewrite discounted_returns_rec.
  induction rs as [|r rs IH]; intros Hrs x Hx; simpl in Hx.
  - contradiction.
  - assert (HM : 0 <= M).
    { apply Rle_trans with (Rabs r); [ apply Rabs_pos | apply Hrs; now left ]. }
    destruct Hx as [<- | Hx].
    + apply (hd_returns_rec_bounded g M (r :: rs) Hg HM Hrs).
    + apply IH; [ | exact Hx ]. intros y Hy. apply Hrs. now right.
Qed.

Lemma discounted_returns_bounded_witness :
  0 <= 1 / 2 < 1 /\
  Rabs (7 / 4) <= 1 / (1 - 1 / 2).
Proof.
  assert (Hg : 0 <= 1 / 2 < 1) by lra.
  split; [ exact Hg | ].
  apply (discounted_returns_bounded (1 / 2) 1 [1; 1; 1] Hg).
  - intros r [<- | [<- | [<- | []]]]; rewrite Rabs_R1; lra.
  - left. unfold discounted_returns. simpl. lra.
Defined.

Lemma hd_returns_rec_repeat g r n :
  g <> 1 ->
  hd 0 (returns_rec g (repeat r n)) = r * (1 - g ^ n) / (1 - g).
Proof.
  intros Hg. induction n as [|n IH].
  - simpl. field. lra.
  - simpl repeat. simpl hd. rewrite IH. simpl pow. field. lra.
Qed.

Lemma hd_returns_rec_repeat_one r n :
  hd 0 (returns_rec 1 (repeat r n)) = r * INR n.
Proof.
  induction n as [|n IH].
  - simpl. ring.
  - simpl repeat. simpl hd. rewrite IH, S_INR. ring.
Qed.

Lemma skipn_repeat (A : Type) (a : A) (i n : nat) :
  skipn i (repeat a n) = repeat a (n - i).
Proof.
  revert n. induction i as [|i IH]; intros [|n]; simpl; auto.
Qed.

Lemma nth_hd_skipn (l : list R) (i : nat) : nth i l 0 = hd 0 (skipn i l).
Proof.
  revert l. induction i as [|i IH]; intros [|x l]; simpl; auto.
Qed.

(** X3: when every timestep gives the same reward [r], the return at
    timestep [i] of an episode of [T] timesteps is the geometric sum
    [r * (1 - g^(T-i)) / (1 - g)], and [r * (T - i)] without discounting. *)
Theorem constant_reward_returns (g r : R) (T i : nat) :
  (g <> 1 ->
   nth i (discounted_returns g (repeat r T)) 0
   = r * (1 - g ^ (T - i)) / (1 - g)) /\
  nth i (discounted_returns 1 (repeat r T)) 0 = r * INR (T - i).
Proof.
  rewrite !nth_hd_skipn, !discounted_returns_suffix, !skipn_repeat,
    !discounted_returns_rec.
  split.
  - intros Hg. now apply hd_returns_rec_repeat.
  - apply hd_returns_rec_repeat_one.
Qed.

Lemma constant_reward_returns_witness :
  99 / 100 <> 1 /\
  nth 1 (discounted_returns (99 / 100) (repeat 1 3)) 0
  = 1 * (1 - (99 / 100) ^ (3 - 1)) / (1 - 99 / 100).
Proof.
  assert (Hg : 99 / 100 <> 1) by lra.
  split; [ exact Hg | ].
  exact (proj1 (constant_reward_returns (99 / 100) 1 3 1) Hg).
Defined.

(** ** More on the normalization *)

Lemma normalize_length xs : length (normalize xs) = length xs.
Proof. unfold normalize. apply length_map. Qed.

Lemma Rsum_repeat (x : R) (n : nat) : Rsum (repeat x n) = INR n * x.
Proof.
  induction n as [|n IH].
  - simpl. ring.
  - rewrite S_INR. simpl. rewrite IH. ring.
Qed.

Lemma sumsq_dev_repeat (x : R) (n : nat) : sumsq_dev x (repeat x n) = 0.
Proof.
  unfold sumsq_dev. induction n as [|n IH]; simpl.
  - reflexivity.
  - rewrite IH. ring.
Qed.

(** X6: returns that are all equal, two or more of them, normalize to
    zeros: the standard deviation is 0 and the epsilon keeps the division
    defined. *)
Theorem normalize_constant (x : R) (n : nat) :
  (2 <= n)%nat ->
  tstd (repeat x n) = Num 0 /\
  normalize (repeat x n) = repeat (Num 0) n.
Proof.
  intros Hn.
  assert (Hn0 : 0 < INR n) by (apply lt_0_INR; lia).
  assert (Hmean : Rsum (repeat x n) / INR (length (repeat x n)) = x).
  { rewrite repeat_length, Rsum_repeat. field. lra. }
  assert (Hs : tstd (repeat x n) = Num 0).
  { apply tstd_char.
    - rewrite repeat_length. exact Hn.
    - lra.
    - rewrite Hmean, sumsq_dev_repeat. ring. }
  split; [ exact Hs | ].
  unfold normalize. rewrite Hs, tmean_num by (rewrite repeat_length; lia).
  rewrite Hmean. simpl sadd. rewrite map_repeat. f_equal. simpl.
  f_equal. unfold Rdiv. ring.
Qed.

Lemma normalize_constant_witness :
  (2 <= 3)%nat /\ normalize (repeat 5 3) = repeat (Num 0) 3.
Proof.
  assert (H : (2 <= 3)%nat) by lia.
  split; [ exact H | exact (proj2 (normalize_constant 5 3 H)) ].
Defined.

(** ** More on the training controller *)

Lemma INR_max_steps_pred : INR (max_steps - 1) = 9999.
Proof. rewrite INR_IZR_INZ. f_equal. Qed.

Lemma div_step (i k : nat) :
  (1 <= i)%nat -> (0 < k)%nat ->
  (i mod k = 0 -> i / k = S ((i - 1) / k) /\ (i / k) * k = i)%nat /\
  (i mod k <> 0 -> i / k = (i - 1) / k)%nat.
Proof.
  intros Hi Hk.
  pose proof (Nat.div_mod_eq i k) as E.
  pose proof (Nat.mod_upper_bound i k ltac:(lia)) as Hr.
  split; intros H0.
  - rewrite H0, Nat.add_0_r in E.
    destruct (i / k)%nat as [|q] eqn:Eq; [ lia | ].
    split; [ | lia ].
    f_equal. apply (Nat.div_unique (i - 1) k q (k - 1)); nia.
  - apply (Nat.div_unique (i - 1) k (i / k) (i mod k - 1)); lia.
Qed.

Lemma combine_fst_snd (A B : Type) (l1 : list A) (l2 : list B) :
  length l1 = length l2 ->
  length (combine l1 l2) = length l1 /\
  map fst (combine l1 l2) = l1 /\ map snd (combine l1 l2) = l2.
Proof.
  revert l2. induction l1 as [|a l1 IH]; intros [|b l2] H; simpl in *;
    try discriminate; [ auto | ].
  destruct (IH l2) as (H1 & H2 & H3); [ lia | ].
  rewrite H1, H2, H3. auto.
Qed.

Section ControllerInvariants.

Context (L : Library) (args : Args).

Implicit Types c : Config L.

(** A property of the start of [main] that every move keeps holds after
    any number of moves. *)
Lemma reach_ind (P : Config L -> Prop) :
  P (main_init args) ->
  (forall c, P c -> P (step args c)) ->
  forall n, P (reach L args n).
Proof.
  intros H0 Hstep n. unfold reach. induction n as [|n IH].
  - exact H0.
  - rewrite run_S. now apply Hstep.
Qed.

Lemma main_init_index_ok : index_ok (main_init (L := L) args).
Proof.
  unfold main_init. destruct (policy_init L _) as [g theta].
  unfold index_ok. simpl. split; [ exact I | lra ].
Qed.

Lemma step_index_ok c : index_ok c -> index_ok (step args c).
Proof.
  unfold index_ok at 1. destruct (phase c) as [|t s|t|] eqn:E;
    intros [Hp Hrr].
  - destruct (step_reset L args c E) as ((s & Hs) & _ & Hr).
    unfold index_ok. rewrite Hs, Hr. split; [ apply max_steps_pos | exact Hrr ].
  - destruct (step_timestep L args c t s E) as (a & r & Hs & _ & _ & _ & Hr).
    unfold index_ok. rewrite Hr. split; [ | exact Hrr ].
    destruct Hs as [-> | (s' & -> & Hlt)]; assumption.
  - destruct (step_episode_end L args c t E) as (Hr & Hc & Ha & _).
    unfold index_ok. rewrite Hr.
    assert (Ht : 0 <= INR t <= 9999).
    { rewrite <- INR_max_steps_pred. split; [ apply pos_INR | ].
      apply le_INR. lia. }
    split; [ | lra ].
    destruct (Rgt_dec (running_reward c * (99 / 100) + INR t * (1 / 100))
                      (reward_threshold L)) as [Hgt | Hle].
    + rewrite (Hc Hgt). exact Hgt.
    + now rewrite (Ha Hle).
  - rewrite (step_converged L args c E). unfold index_ok. rewrite E. auto.
Qed.

Lemma step_on_policy c : on_policy c -> on_policy (step args c).
Proof.
  unfold on_policy. intros H. unfold step.
  destruct (phase c) as [|t s|t|] eqn:E.
  - destruct (env_reset L (env c)) as [e s]. exact H.
  - unfold timestep, select_action.
    destruct (multinomial L (rng c) _) as [g' a].
    destruct (env_step L (env c) a) as [e' [[s' r] done]].
    cbn [policy params saved_actions].
    apply Forall_app. split; [ exact H | ].
    constructor; [ reflexivity | constructor ].
  - unfold episode_end, finish_episode.
    destruct (optimizer_step L _ _ _) as [o' p'].
    cbn [policy saved_actions]. constructor.
  - exact H.
Qed.

Lemma step_msgs_ok c :
  (0 < log_interval args)%nat -> msgs_ok args c -> msgs_ok args (step args c).
Proof.
  intros Hk. unfold msgs_ok, episodes_done, step.
  destruct (phase c) as [|t s|t|] eqn:E; intros [Hi Hm].
  - destruct (env_reset L (env c)) as [e s].
    cbn [phase i_episode msgs]. split; [ lia | ].
    now replace (S (i_episode c) - 1)%nat with (i_episode c) by lia.
  - unfold timestep, select_action.
    destruct (multinomial L (rng c) _) as [g' a].
    destruct (env_step L (env c) a) as [e' [[s' r] done]].
    cbn [phase i_episode msgs].
    destruct done; [ | destruct (S t <? max_steps)%nat ];
      (split; [ exact Hi | exact Hm ]).
  - unfold episode_end.
    destruct (finish_episode (policy c) (optimizer c) (gamma args)) as [p o].
    cbn [phase i_episode msgs].
    destruct (div_step (i_episode c) (log_interval args) Hi Hk) as [Hz Hnz].
    assert (Hgoal :
      map msg_episode
        (if (i_episode c mod log_interval args =? 0)%nat
         then msgs c ++
              [Progress (i_episode c) t
                 (running_reward c * (99 / 100) + INR t * (1 / 100))]
         else msgs c)
      = map (fun j => (j * log_interval args)%nat)
            (seq 0 (S (i_episode c / log_interval args)))).
    { destruct (i_episode c mod log_interval args =? 0)%nat eqn:Em.
      - apply Nat.eqb_eq in Em. destruct (Hz Em) as [Hq Hmul].
        rewrite Hq in Hmul |- *.
        rewrite map_app, Hm, (seq_S (S _) 0), map_app.
        f_equal. cbn [map msg_episode Nat.add]. now rewrite Hmul.
      - apply Nat.eqb_neq in Em. now rewrite Hm, (Hnz Em). }
    destruct (Rgt_dec _ _); (split; [ exact I | exact Hgoal ]).
  - rewrite E. split; [ exact I | exact Hm ].
Qed.

Lemma main_init_msgs_ok : msgs_ok args (main_init (L := L) args).
Proof.
  unfold main_init. destruct (policy_init L _) as [g theta].
  unfold msgs_ok, episodes_done. cbn [phase i_episode msgs].
  split; [ exact I | ].
  rewrite Nat.Div0.div_0_l. reflexivity.
Qed.

(** From inside the inner loop the end of the episode is at most
    [max_steps - t] timesteps away. *)
Lemma episode_ends d c t state :
  phase c = RunningEpisode t state ->
  (max_steps - t <= S d)%nat ->
  exists t', (t <= t')%nat /\ (t' < Nat.max max_steps (S t))%nat /\
             phase (run args (S (t' - t)) c) = EpisodeComplete t'.
Proof.
  revert c t state. induction d as [|d IH]; intros c t s E Hd.
  - exists t. split; [ lia | ]. split; [ lia | ].
    rewrite Nat.sub_diag.
    destruct (step_timestep L args c t s E) as (a & r & [H | (s' & _ & Hlt)] & _).
    + exact H.
    + lia.
  - destruct (step_timestep L args c t s E) as (a & r & [H | (s' & Hs & Hlt)] & _).
    + exists t. split; [ lia | ]. split; [ lia | ].
      rewrite Nat.sub_diag. exact H.
    + destruct (IH (step args c) (S t) s' Hs) as (t' & Hle & Hlt' & Hp);
        [ lia | ].
      exists t'. split; [ lia | ]. split; [ lia | ].
      replace (S (t' - t)) with (S (t' - S t) + 1)%nat by lia.
      rewrite run_add. exact Hp.
Qed.

End ControllerInvariants.

(** X8: when [main] calls [finish_episode] after an episode whose last
    index is [t], the [zip] of the action records with the normalized
    returns has [t + 1] pairs and drops nothing: its first components are
    the whole buffer of records, its second components all the normalized
    returns. *)
Theorem reinforce_pairs_every_action (L : Library) (args : Args) (n t : nat) :
  phase (reach L args n) = EpisodeComplete t ->
  length (combine (saved_actions (policy (reach L args n)))
            (normalize (discounted_returns (gamma args)
                          (rewards (policy (reach L args n))))))
  = S t /\
  map fst (combine (saved_actions (policy (reach L args n)))
             (normalize (discounted_returns (gamma args)
                           (rewards (policy (reach L args n))))))
  = saved_actions (policy (reach L args n)) /\
  map snd (combine (saved_actions (policy (reach L args n)))
             (normalize (discounted_returns (gamma args)
                           (rewards (policy (reach L args n))))))
  = normalize (discounted_returns (gamma args)
                 (rewards (policy (reach L args n)))).
Proof.
  intros E. pose proof (run_buffers_ok L args n) as H.
  unfold buffers_ok in H. rewrite E in H. destruct H as [Hs Hr].
  destruct (combine_fst_snd _ _
              (saved_actions (policy (reach L args n)))
              (normalize (discounted_returns (gamma args)
                            (rewards (policy (reach L args n))))))
    as (H1 & H2 & H3).
  - now rewrite normalize_length, discounted_returns_rec, returns_rec_length,
      Hs, Hr.
  - rewrite H1, Hs. auto.
Qed.

Lemma reinforce_pairs_every_action_witness :
  phase (reach (toy 3 195) parse_args 4) = EpisodeComplete 2 /\
  length (combine (saved_actions (policy (reach (toy 3 195) parse_args 4)))
            (normalize (discounted_returns (gamma parse_args)
                          (rewards (policy (reach (toy 3 195) parse_args 4))))))
  = 3%nat.
Proof.
  split; [ exact toy_three_steps_phase | ].
  exact (proj1 (reinforce_pairs_every_action (toy 3 195) parse_args 4 2
                  toy_three_steps_phase)).
Defined.

(** X9: at every point of [main], every action record in the buffer
    holds the distribution that the network gives, with its current
    parameters, for the state the record was sampled at: the parameters
    do not change while records are buffered. *)
Theorem buffered_actions_on_policy (L : Library) (args : Args) (n : nat)
  (a : SavedAction (Obs L)) :
  In a (saved_actions (policy (reach L args n))) ->
  sa_probs a
  = forward L (params (policy (reach L args n))) (sa_state a).
Proof.
  revert a. apply Forall_forall.
  apply (reach_ind L args on_policy).
  - unfold main_init. destruct (policy_init L _) as [g theta].
    unfold on_policy. simpl. constructor.
  - apply step_on_policy.
Qed.

Lemma buffered_actions_on_policy_witness :
  In {| sa_state := tt; sa_probs := [1 / 2; 1 / 2]; sa_index := 0 |}
     (saved_actions (policy (reach (toy 1 195) parse_args 2))) /\
  [1 / 2; 1 / 2]
  = forward (toy 1 195)
      (params (policy (reach (toy 1 195) parse_args 2))) tt.
Proof.
  assert (H : In {| sa_state := tt; sa_probs := [1 / 2; 1 / 2];
                    sa_index := 0 |}
                 (saved_actions (policy (reach (toy 1 195) parse_args 2))))
    by (left; reflexivity).
  split; [ exact H | ].
  exact (buffered_actions_on_policy (toy 1 195) parse_args 2 _ H).
Defined.

(** X10: whatever the environment answers, an episode ends: from the
    head of the outer loop, after the reset and at most [max_steps]
    timesteps, [main] is at the end of the inner loop with a last index
    [t] below [max_steps]. *)
Theorem episode_is_capped (L : Library) (args : Args) (c : Config L) :
  phase c = AwaitingReset ->
  exists t, (t < max_steps)%nat /\
            phase (run args (t + 2) c) = EpisodeComplete t.
Proof.
  intros E. destruct (step_reset L args c E) as ((s & Hs) & _).
  destruct (episode_ends L args max_steps (step args c) 0 s Hs) as
    (t & _ & Hlt & Hp); [ lia | ].
  pose proof max_steps_pos.
  exists t. split; [ lia | ].
  replace (t + 2)%nat with (S (t - 0) + 1)%nat by lia.
  rewrite run_add. exact Hp.
Qed.

Lemma episode_is_capped_witness :
  phase (main_init (L := toy 3 195) parse_args) = AwaitingReset /\
  exists t, (t < max_steps)%nat /\
            phase (run parse_args (t + 2) (main_init (L := toy 3 195) parse_args))
            = EpisodeComplete t.
Proof.
  assert (H : phase (main_init (L := toy 3 195) parse_args) = AwaitingReset)
    by reflexivity.
  split; [ exact H | ].
  exact (episode_is_capped (toy 3 195) parse_args _ H).
Defined.

(** X11: at every point of [main] the two buffers have the same length,
    hold at most [max_steps] entries, and are empty at the head of the
    outer loop: no record or reward of one episode is left for the
    next. *)
Theorem buffers_bounded_and_cleared (L : Library) (args : Args) (n : nat) :
  length (saved_actions (policy (reach L args n)))
  = length (rewards (policy (reach L args n))) /\
  (length (rewards (policy (reach L args n))) <= max_steps)%nat /\
  (phase (reach L args n) = AwaitingReset ->
   saved_actions (policy (reach L args n)) = [] /\
   rewards (policy (reach L args n)) = []).
Proof.
  pose proof (run_buffers_ok L args n) as Hb.
  pose proof (reach_ind L args index_ok (main_init_index_ok L args)
                (step_index_ok L args) n) as [Hi _].
  unfold buffers_ok in Hb.
  destruct (phase (reach L args n)) as [|t s|t|].
  - destruct Hb as [-> ->]. simpl. repeat split; lia.
  - destruct Hb as (-> & -> & Hlt). repeat split; try lia; discriminate.
  - destruct Hb as (-> & ->). repeat split; try lia; discriminate.
  - destruct Hb as [-> ->]. simpl. repeat split; try lia; discriminate.
Qed.

Lemma buffers_bounded_and_cleared_witness :
  phase (reach (toy 1 195) parse_args 3) = AwaitingReset /\
  saved_actions (policy (reach (toy 1 195) parse_args 3)) = [] /\
  rewards (policy (reach (toy 1 195) parse_args 3)) = [].
Proof.
  split; [ exact toy_second_reset | ].
  exact (proj2 (proj2 (buffers_bounded_and_cleared (toy 1 195) parse_args 3))
           toy_second_reset).
Defined.

(** X12: the running reward stays between 0 and 9999, the largest last
    index an episode can have; so with an environment whose reward
    threshold is 9999 or more [main] never leaves its outer loop. *)
Theorem running_reward_bounded (L : Library) (args : Args) (n : nat) :
  0 <= running_reward (reach L args n) <= 9999 /\
  (9999 <= reward_threshold L -> phase (reach L args n) <> Converged).
Proof.
  pose proof (reach_ind L args index_ok (main_init_index_ok L args)
                (step_index_ok L args) n) as [Hp Hrr].
  split; [ exact Hrr | ].
  intros Hthr E. rewrite E in Hp. lra.
Qed.

Lemma running_reward_bounded_witness :
  9999 <= reward_threshold (toy 1 10000) /\
  phase (reach (toy 1 10000) parse_args 3) <> Converged.
Proof.
  assert (H : 9999 <= reward_threshold (toy 1 10000)) by (simpl; lra).
  split; [ exact H | ].
  exact (proj2 (running_reward_bounded (toy 1 10000) parse_args 3) H).
Defined.

(** X13: with a positive [log_interval], the lines of [msgs] are the
    initial empty string followed by one progress report for each
    finished episode whose number is a multiple of [log_interval], in
    order: after [e] finished episodes the reports are those of the
    episodes [log_interval], [2 * log_interval], ... up to [e]. *)
Theorem progress_every_log_interval (L : Library) (args : Args) (n : nat) :
  (0 < log_interval args)%nat ->
  map msg_episode (msgs (reach L args n))
  = map (fun j => (j * log_interval args)%nat)
        (seq 0 (S (episodes_done (reach L args n) / log_interval args))).
Proof.
  intros Hk.
  apply (reach_ind L args (msgs_ok args) (main_init_msgs_ok L args)
           (fun c => step_msgs_ok L args c Hk) n).
Qed.

Lemma progress_every_log_interval_witness :
  (0 < log_interval report_every_episode)%nat /\
  map msg_episode (msgs (reach (toy 1 195) report_every_episode 3))
  = [0; 1]%nat /\
  map msg_episode (msgs (reach (toy 1 195) report_every_episode 3))
  = map (fun j => (j * log_interval report_every_episode)%nat)
        (seq 0 (S (episodes_done (reach (toy 1 195) report_every_episode 3)
                   / log_interval report_every_episode))).
Proof.
  assert (H : (0 < log_interval report_every_episode)%nat) by (simpl; lia).
  split; [ exact H | ]. split; [ reflexivity | ].
  exact (progress_every_log_interval (toy 1 195) report_every_episode 3 H).
Defined.
